(** * ndmg: fiber tracts to a chunked sparse voxel-connectivity graph

    The repository's driver [gengraph.py] reads an MRI Studio fiber file
    through [fiber.FiberReader], accumulates every fiber into a
    [fibergraph.FiberGraph] and writes the graph in SciDB ingest format.
    The two library modules are not part of the available sources; their
    behaviour is modelled from the specification (VoxelIndexer,
    SparseGraphAccumulator, ChunkedMatrixWriter), while [main] is embedded
    from [gengraph.py]. *)

From Stdlib Require Import ZArith Lia.
From stdpp Require Import base list gmap sorting.

Open Scope Z_scope.

(* ------------------------------------------------------------------ *)
(** ** Errors and the result type *)

(** The error taxonomy of the pipeline. *)
Inductive error :=
  | TruncatedHeaderError
  | MalformedRecordError
  | OutOfBoundsError
  | WriteError.

(** A fallible computation: a value, or the error that was raised. *)
Inductive result (A : Type) :=
  | Ok (a : A)
  | Err (e : error).
Arguments Ok {A} a.
Arguments Err {A} e.

Definition res_bind {A B} (c : result A) (k : A -> result B) : result B :=
  match c with
  | Ok a => k a
  | Err e => Err e
  end.

Notation "'let?' x ':=' c 'in' k" := (res_bind c (fun x => k))
  (at level 200, x name, c at level 100, k at level 200).

(* ------------------------------------------------------------------ *)
(** ** Data model *)

(** VolumeShape: the voxel grid extent (dimX, dimY, dimZ). *)
Record VolumeShape := mkShape { dimX : Z; dimY : Z; dimZ : Z }.

(** A voxel coordinate (x, y, z). *)
Record Coord := mkCoord { cx : Z; cy : Z; cz : Z }.

(** A trajectory (fiber): the ordered list of voxels it visits. *)
Abbreviation Trajectory := (list Coord).

(** SparseMatrix: (rowIndex, colIndex) to a strictly positive weight. *)
Abbreviation SparseMatrix := (gmap (Z * Z) positive).

Definition valid_shape (s : VolumeShape) : Prop :=
  0 < dimX s /\ 0 < dimY s /\ 0 < dimZ s.

Definition volume (s : VolumeShape) : Z := dimX s * dimY s * dimZ s.

(* ------------------------------------------------------------------ *)
(** ** VoxelIndexer *)

(** Modelled from the spec: the bounds test of [toLinear] (module
    [fibergraph], not in the sources): every component non-negative and
    below the corresponding shape dimension. *)
Definition in_bounds (s : VolumeShape) (c : Coord) : bool :=
  (0 <=? cx c) && (cx c <? dimX s) &&
  (0 <=? cy c) && (cy c <? dimY s) &&
  (0 <=? cz c) && (cz c <? dimZ s).

(** Modelled from the spec: [toLinear(coord, shape)], row-major
    flattening x + dimX * (y + dimY * z); an out-of-range component raises
    [OutOfBoundsError]. *)
Definition toLinear (c : Coord) (s : VolumeShape) : result Z :=
  if in_bounds s c
  then Ok (cx c + dimX s * (cy c + dimY s * cz c))
  else Err OutOfBoundsError.

(** Modelled from the spec: the inverse linear-to-3D mapping. *)
Definition fromLinear (l : Z) (s : VolumeShape) : Coord :=
  mkCoord (l mod dimX s) ((l / dimX s) mod dimY s) ((l / dimX s) / dimY s).

(** Modelled from the spec: [toChunkCoord], the integer division and
    remainder split of a matrix key (rowIndex, colIndex) by the chunk
    dimensions (chunkRows, chunkCols), giving
    (chunkRow, chunkCol, localRow, localCol). *)
Definition toChunkCoord (k : Z * Z) (cs : Z * Z) : Z * Z * Z * Z :=
  let '(r, c) := k in
  let '(crs, ccs) := cs in
  (r / crs, c / ccs, r mod crs, c mod ccs).

(** Reassembling a matrix key from its chunk and local coordinates. *)
Definition fromChunkCoord (q : Z * Z * Z * Z) (cs : Z * Z) : Z * Z :=
  let '(a, b, lr, lc) := q in
  let '(crs, ccs) := cs in
  (crs * a + lr, ccs * b + lc).

(* ------------------------------------------------------------------ *)
(** ** SparseGraphAccumulator *)

(** Increment the weight at key [k] by one (a new key gets weight 1). *)
Definition incr (m : SparseMatrix) (k : Z * Z) : SparseMatrix :=
  <[k := match m !! k with Some w => Pos.succ w | None => 1%positive end]> m.

(** Walk the consecutive pairs (p, q) of a trajectory: linearise both
    endpoints and increment the entry (linear p, linear q). *)
Fixpoint add_pairs (s : VolumeShape) (m : SparseMatrix) (p : Coord)
    (rest : Trajectory) : result SparseMatrix :=
  match rest with
  | [] => Ok m
  | q :: rest' =>
      let? i := toLinear p s in
      let? j := toLinear q s in
      add_pairs s (incr m (i, j)) q rest'
  end.

(** Modelled from the spec: [FiberGraph.add(fiber)]; trajectories with
    fewer than two points contribute nothing. *)
Definition add (s : VolumeShape) (m : SparseMatrix) (t : Trajectory)
    : result SparseMatrix :=
  match t with
  | [] => Ok m
  | p :: rest => add_pairs s m p rest
  end.

(** Feeding a sequence of trajectories to the accumulator, stopping at
    the first error. *)
Fixpoint accumulate (s : VolumeShape) (m : SparseMatrix) (ts : list Trajectory)
    : result SparseMatrix :=
  match ts with
  | [] => Ok m
  | t :: ts' => let? m' := add s m t in accumulate s m' ts'
  end.

(** Merging two accumulator shards by adding weights. *)
Definition merge (m1 m2 : SparseMatrix) : SparseMatrix :=
  union_with (fun a b => Some (a + b)%positive) m1 m2.

(** The sum of all edge weights of a matrix. *)
Definition sum_weights (m : SparseMatrix) : Z :=
  map_fold (fun _ w acc => Zpos w + acc) 0 m.

(** The number of consecutive-point pairs of a trajectory. *)
Definition pair_count (t : Trajectory) : Z :=
  Z.max (Z.of_nat (length t) - 1) 0.

Definition all_in_bounds (s : VolumeShape) (ts : list Trajectory) : Prop :=
  Forall (fun t => Forall (fun c => in_bounds s c = true) t) ts.


(** The linearised consecutive pairs of a trajectory, in order. *)
Fixpoint edge_pairs (s : VolumeShape) (p : Coord) (rest : Trajectory)
    : result (list (Z * Z)) :=
  match rest with
  | [] => Ok []
  | q :: rest' =>
      let? i := toLinear p s in
      let? j := toLinear q s in
      let? es := edge_pairs s q rest' in
      Ok ((i, j) :: es)
  end.

Definition edges (s : VolumeShape) (t : Trajectory) : result (list (Z * Z)) :=
  match t with
  | [] => Ok []
  | p :: rest => edge_pairs s p rest
  end.

Definition res_map {A B} (f : A -> B) (c : result A) : result B :=
  let? a := c in Ok (f a).

(** The weight of an edge, 0 when absent. *)
Definition weight (m : SparseMatrix) (k : Z * Z) : Z :=
  match m !! k with Some w => Zpos w | None => 0 end.

(* ------------------------------------------------------------------ *)
(** ** ChunkedMatrixWriter *)

(** An entry of a chunk: (localRow, localCol, weight). *)
Abbreviation ChunkEntry := (Z * Z * positive)%type.

(** A chunk: its (chunkRow, chunkCol) and its entries. *)
Abbreviation Chunk := ((Z * Z) * list ChunkEntry)%type.

(** A record of the ingest output: a chunk header carrying the chunk
    coordinate and the number of entries, or one entry triple. *)
Inductive Rec :=
  | Header (chunkRow chunkCol : Z) (n : nat)
  | Entry (localRow localCol : Z) (w : positive).

(** Where one matrix entry goes: its chunk and its chunk-local triple. *)
Definition chunk_entry (cs : Z * Z) (kw : (Z * Z) * positive)
    : (Z * Z) * ChunkEntry :=
  let '(k, w) := kw in
  let '(a, b, lr, lc) := toChunkCoord k cs in
  ((a, b), (lr, lc, w)).

(** One grouping step: prepend the entry's chunk-local triple to the list
    of its chunk. *)
Definition group_step (cs : Z * Z) (kw : (Z * Z) * positive)
    (g : gmap (Z * Z) (list ChunkEntry)) : gmap (Z * Z) (list ChunkEntry) :=
  let '(ck, e) := chunk_entry cs kw in
  <[ck := e :: default [] (g !! ck)]> g.

(** Modelled from the spec: grouping all matrix entries by
    (chunkRow, chunkCol) into a chunk-keyed map. *)
Definition group_chunks (m : SparseMatrix) (cs : Z * Z)
    : gmap (Z * Z) (list ChunkEntry) :=
  foldr (group_step cs) ∅ (map_to_list m).

(** Ascending chunkRow, then ascending chunkCol. *)
Definition chunk_key_le (k1 k2 : Z * Z) : bool :=
  (k1.1 <? k2.1) || ((k1.1 =? k2.1) && (k1.2 <=? k2.2)).

Definition chunk_key_lt (k1 k2 : Z * Z) : bool :=
  (k1.1 <? k2.1) || ((k1.1 =? k2.1) && (k1.2 <? k2.2)).

Definition chunk_le (c1 c2 : Chunk) : Prop := chunk_key_le c1.1 c2.1 = true.

Global Instance chunk_le_dec : RelDecision chunk_le.
Proof. intros c1 c2. unfold chunk_le. apply _. Defined.

(** Modelled from the spec: the non-empty chunks in enumeration order. *)
Definition write_chunks (m : SparseMatrix) (cs : Z * Z) : list Chunk :=
  merge_sort chunk_le (map_to_list (group_chunks m cs)).

(** A chunk header followed by each entry's triple. *)
Definition emit_chunk (c : Chunk) : list Rec :=
  let '((a, b), es) := c in
  Header a b (length es) :: map (fun '(lr, lc, w) => Entry lr lc w) es.

(** Modelled from the spec: [FiberGraph.writeForSciDB(chunkSize, fout)],
    the records written to the sink. *)
Definition writeForSciDB (m : SparseMatrix) (cs : Z * Z) : list Rec :=
  concat (map emit_chunk (write_chunks m cs)).

(** The ingest side: read [n] entry triples. *)
Fixpoint read_entries (n : nat) (rs : list Rec)
    : option (list ChunkEntry * list Rec) :=
  match n, rs with
  | O, _ => Some ([], rs)
  | S n', Entry lr lc w :: rs' =>
      match read_entries n' rs' with
      | Some (es, rest) => Some ((lr, lc, w) :: es, rest)
      | None => None
      end
  | S _, _ => None
  end.

Fixpoint read_chunks_fuel (fuel : nat) (rs : list Rec) : option (list Chunk) :=
  match rs with
  | [] => Some []
  | Entry _ _ _ :: _ => None
  | Header a b n :: rs' =>
      match fuel with
      | O => None
      | S fuel' =>
          match read_entries n rs' with
          | Some (es, rest) =>
              match read_chunks_fuel fuel' rest with
              | Some cs => Some (((a, b), es) :: cs)
              | None => None
              end
          | None => None
          end
      end
  end.

(** The ingest side: a sequence of chunks, each a header with its entry
    count followed by exactly that many entry triples. *)
Definition read_chunks (rs : list Rec) : option (list Chunk) :=
  read_chunks_fuel (length rs) rs.

(** All (chunkRow, chunkCol, localRow, localCol, weight) of a chunk list. *)
Definition chunk_cells (chs : list Chunk) : list ((Z * Z) * ChunkEntry) :=
  flat_map (fun c => map (fun e => (c.1, e)) c.2) chs.

(* ------------------------------------------------------------------ *)
(** ** The driver [gengraph.main] *)

(** A fiber file as [FiberReader] presents it: the volume shape and the
    lazy stream of fibers; an item [Err e] is a decode error raised when
    the loop draws that item. *)
Record FiberSource := mkSource {
  src_shape : VolumeShape;
  src_fibers : list (result Trajectory)
}.

(** Observable steps of a run. *)
Inductive event :=
  | EvOpenFailed                        (* "Could not truncate or create file" *)
  | EvPrintReader                       (* print(reader) *)
  | EvConsume (t : Trajectory)          (* the for loop draws a fiber *)
  | EvAdd (t : Trajectory)              (* fbrgraph.add(fiber) returned *)
  | EvProgress (n : Z)                  (* "Processed %d fibers" *)
  | EvWrite (cs : Z * Z) (out : list Rec). (* fbrgraph.writeForSciDB *)

(** How a run ends: normally, through [sys.exit], or by an exception. *)
Inductive outcome :=
  | Finished
  | Exited (code : Z)
  | Raised (e : error).

(** The [for fiber in reader] loop of [main], with [cap] = [result.count]
    and [count] the fibers drawn so far. Returns the exception raised (if
    any), the graph and the events. *)
Fixpoint fiber_loop (s : VolumeShape) (cap count : Z) (g : SparseMatrix)
    (fibers : list (result Trajectory))
    : option error * SparseMatrix * list event :=
  match fibers with
  | [] => (None, g, [])
  | Err e :: _ => (Some e, g, [])
  | Ok f :: rest =>
      let count' := count + 1 in
      match add s g f with
      | Err e => (Some e, g, [EvConsume f])
      | Ok g' =>
          if (0 <? cap) && (cap <=? count')
          then (None, g', [EvConsume f; EvAdd f])
          else
            let pr := if count' mod 1000 =? 0 then [EvProgress count'] else [] in
            let '(o, g'', tr) := fiber_loop s cap count' g' rest in
            (o, g'', EvConsume f :: EvAdd f :: pr ++ tr)
      end
  end.

(** [gengraph.main]: [cap] is the parsed [--count] (default -1), [reader]
    is [FiberReader(result.file)] (or the error its constructor raises),
    [out_ok] tells whether [open(result.output, 'w+')] succeeds. *)
Definition main (cap : Z) (reader : result FiberSource) (out_ok : bool)
    : outcome * list event :=
  match reader with
  | Err e => (Raised e, [])
  | Ok src =>
      let g : SparseMatrix := ∅ in
      if negb out_ok then (Exited (-1), [EvOpenFailed])
      else
        let '(o, g', tr) := fiber_loop (src_shape src) cap 0 g (src_fibers src) in
        match o with
        | Some e => (Raised e, EvPrintReader :: tr)
        | None =>
            (Finished, EvPrintReader :: tr
                         ++ [EvWrite (65536, 65536) (writeForSciDB g' (65536, 65536))])
        end
  end.

(** The fibers drawn from the reader, in the order of a trace. *)
Fixpoint consumed (tr : list event) : list Trajectory :=
  match tr with
  | [] => []
  | EvConsume t :: tr' => t :: consumed tr'
  | _ :: tr' => consumed tr'
  end.

(** The fibers added to the graph, in the order of a trace. *)
Fixpoint added (tr : list event) : list Trajectory :=
  match tr with
  | [] => []
  | EvAdd t :: tr' => t :: added tr'
  | _ :: tr' => added tr'
  end.

Definition is_write (ev : event) : bool :=
  match ev with EvWrite _ _ => true | _ => false end.

(** How many times [writeForSciDB] is invoked in a trace. *)
Definition write_count (tr : list event) : nat := length (filter is_write tr).

(** The counts reported by the "Processed %d fibers" lines of a trace. *)
Fixpoint progress (tr : list event) : list Z :=
  match tr with
  | [] => []
  | EvProgress n :: tr' => n :: progress tr'
  | _ :: tr' => progress tr'
  end.

(** The values among [count + 1, ..., count + k] divisible by 1000. *)
Definition progress_expected (count : Z) (k : nat) : list Z :=
  filter (fun n => n mod 1000 =? 0) (map (fun i => count + Z.of_nat i) (seq 1 k)).

(** A sum over a list. *)
Definition Zsum {A} (f : A -> Z) (l : list A) : Z :=
  fold_right (fun x acc => f x + acc) 0 l.

(** The weight carried by an output record. *)
Definition rec_weight (r : Rec) : Z :=
  match r with
  | Entry _ _ w => Zpos w
  | Header _ _ _ => 0
  end.

(** The sum of the weights of all entry records written. *)
Definition written_weight (rs : list Rec) : Z := Zsum rec_weight rs.

(* ------------------------------------------------------------------ *)
(** ** The scenarios of the specification, evaluated *)

Example scenario_4x4x4 :
  accumulate (mkShape 4 4 4) ∅
    [[mkCoord 0 0 0; mkCoord 1 0 0; mkCoord 1 0 0]]
  = Ok (<[(0, 1) := 1%positive]> (<[(1, 1) := 1%positive]> ∅)).
Proof. vm_compute. reflexivity. Qed.

Example scenario_write :
  writeForSciDB (<[(0, 1) := 1%positive]> (<[(1, 1) := 1%positive]> ∅)) (64, 64)
  = [Header 0 0 2; Entry 1 1 1; Entry 0 1 1]
  \/ writeForSciDB (<[(0, 1) := 1%positive]> (<[(1, 1) := 1%positive]> ∅)) (64, 64)
  = [Header 0 0 2; Entry 0 1 1; Entry 1 1 1].
Proof. vm_compute. auto. Qed.

Example scenario_two_fibers :
  accumulate (mkShape 4 4 4) ∅
    [[mkCoord 0 0 0; mkCoord 1 0 0]; [mkCoord 0 0 0; mkCoord 1 0 0]]
  = Ok (<[(0, 1) := 2%positive]> ∅).
Proof. vm_compute. reflexivity. Qed.

Example chunk_order :
  map (fun c => c.1)
    (write_chunks (<[(70, 1) := 1%positive]> (<[(1, 70) := 2%positive]>
                   (<[(1, 1) := 3%positive]> (<[(70, 70) := 1%positive]> ∅)))) (64, 64))
  = [(0, 0); (0, 1); (1, 0); (1, 1)].
Proof. vm_compute. reflexivity. Qed.

(* ------------------------------------------------------------------ *)
(** ** VoxelIndexer: arithmetic *)

Lemma div_mod_split (d q r : Z) :
  0 <= r < d -> (d * q + r) / d = q /\ (d * q + r) mod d = r.
Proof.
  intros Hr. split.
  - symmetry. apply (Z.div_unique _ _ _ r); lia.
  - symmetry. apply (Z.mod_unique _ _ q); lia.
Qed.

Lemma in_bounds_spec (s : VolumeShape) (c : Coord) :
  in_bounds s c = true <->
  (0 <= cx c < dimX s /\ 0 <= cy c < dimY s /\ 0 <= cz c < dimZ s).
Proof.
  unfold in_bounds. rewrite !andb_true_iff, !Z.leb_le, !Z.ltb_lt. tauto.
Qed.

Lemma fromLinear_toLinear (s : VolumeShape) (c : Coord) (l : Z) :
  toLinear c s = Ok l -> fromLinear l s = c.
Proof.
  unfold toLinear. destruct (in_bounds s c) eqn:Hb; [|discriminate].
  intros Hl. injection Hl as <-. apply in_bounds_spec in Hb.
  destruct c as [x y z]; simpl in *.
  destruct (div_mod_split (dimX s) (y + dimY s * z) x) as [H1 H2]; [lia|].
  unfold fromLinear. simpl.
  replace (x + dimX s * (y + dimY s * z)) with (dimX s * (y + dimY s * z) + x)
    by ring.
  rewrite H1, H2.
  destruct (div_mod_split (dimY s) z y) as [H3 H4]; [lia|].
  replace (y + dimY s * z) with (dimY s * z + y) by ring.
  rewrite H3, H4. reflexivity.
Qed.

Lemma toLinear_in_bounds (s : VolumeShape) (c : Coord) :
  in_bounds s c = true ->
  exists l, toLinear c s = Ok l /\ 0 <= l < volume s.
Proof.
  intros Hb. unfold toLinear. rewrite Hb. eexists; split; [reflexivity|].
  apply in_bounds_spec in Hb. destruct c as [x y z]. simpl in *.
  unfold volume.
  assert (H1 : 0 <= y + dimY s * z <= dimY s * dimZ s - 1) by nia.
  nia.
Qed.

Lemma toLinear_fromLinear (s : VolumeShape) (l : Z) :
  valid_shape s -> 0 <= l < volume s -> toLinear (fromLinear l s) s = Ok l.
Proof.
  intros (HX & HY & HZ) Hl. unfold volume in Hl.
  set (q := l / dimX s).
  assert (Hq : 0 <= q < dimY s * dimZ s).
  { subst q. split; [apply Z.div_pos; lia|].
    apply Z.div_lt_upper_bound; lia. }
  assert (HxX := Z.mod_pos_bound l (dimX s) HX).
  assert (HyY := Z.mod_pos_bound q (dimY s) HY).
  assert (Hz : 0 <= q / dimY s < dimZ s).
  { split; [apply Z.div_pos; lia|]. apply Z.div_lt_upper_bound; lia. }
  assert (Hb : in_bounds s (fromLinear l s) = true).
  { apply in_bounds_spec. unfold fromLinear; simpl. fold q. lia. }
  unfold toLinear. rewrite Hb. f_equal. unfold fromLinear; simpl. fold q.
  assert (Hl1 := Z_div_mod_eq_full l (dimX s)). fold q in Hl1.
  assert (Hq1 := Z_div_mod_eq_full q (dimY s)).
  replace (q mod dimY s + dimY s * (q / dimY s)) with q by lia. lia.
Qed.

Lemma fromChunkCoord_toChunkCoord (k cs : Z * Z) :
  fromChunkCoord (toChunkCoord k cs) cs = k.
Proof.
  destruct k as [r c], cs as [crs ccs]. simpl.
  rewrite <- !Z_div_mod_eq_full. reflexivity.
Qed.

(* ------------------------------------------------------------------ *)
(** ** SparseGraphAccumulator: the edges of a trajectory *)

Lemma res_bind_assoc {A B C} (c : result A) (k1 : A -> result B)
    (k2 : B -> result C) :
  res_bind (res_bind c k1) k2 = res_bind c (fun a => res_bind (k1 a) k2).
Proof. destruct c; reflexivity. Qed.

Lemma add_edges (s : VolumeShape) (m : SparseMatrix) (t : Trajectory) :
  add s m t = res_map (foldl incr m) (edges s t).
Proof.
  destruct t as [|p rest]; [reflexivity|]. simpl.
  revert p m. induction rest as [|q rest IH]; intros p m; [reflexivity|].
  simpl. destruct (toLinear p s) as [i|e]; [|reflexivity]. simpl.
  destruct (toLinear q s) as [j|e]; [|reflexivity]. simpl.
  rewrite IH. unfold res_map. destruct (edge_pairs s q rest); reflexivity.
Qed.

Lemma edges_err (s : VolumeShape) (t : Trajectory) (e : error) :
  edges s t = Err e -> e = OutOfBoundsError.
Proof.
  destruct t as [|p rest]; [discriminate|]. simpl.
  revert p. induction rest as [|q rest IH]; intros p; [discriminate|].
  simpl. unfold toLinear at 1.
  destruct (in_bounds s p); simpl; [|congruence].
  unfold toLinear at 1. destruct (in_bounds s q); simpl; [|congruence].
  destruct (edge_pairs s q rest) eqn:E; simpl; [discriminate|].
  intros [= <-]. eauto.
Qed.

Lemma edges_ok (s : VolumeShape) (t : Trajectory) :
  Forall (fun c => in_bounds s c = true) t ->
  exists es, edges s t = Ok es /\ length es = (length t - 1)%nat.
Proof.
  destruct t as [|p rest]; [exists []; auto|]. simpl.
  revert p. induction rest as [|q rest IH]; intros p Hall; [exists []; auto|].
  inversion Hall as [|? ? Hp Hrest]; subst. inversion Hrest; subst.
  destruct (IH q Hrest) as (es & Hes & Hlen).
  destruct (toLinear_in_bounds s p Hp) as (i & Hi & _).
  destruct (toLinear_in_bounds s q ltac:(assumption)) as (j & Hj & _).
  exists ((i, j) :: es). simpl. rewrite Hi, Hj. simpl. rewrite Hes.
  split; [reflexivity|]. simpl in *. lia.
Qed.

Lemma edges_out (s : VolumeShape) (t : Trajectory) (c : Coord) :
  in_bounds s c = false -> In c t -> (2 <= length t)%nat ->
  edges s t = Err OutOfBoundsError.
Proof.
  intros Hc. destruct t as [|p rest]; [simpl; lia|]. simpl.
  revert p. induction rest as [|q rest IH]; intros p Hin Hlen; [simpl in *; lia|].
  simpl. unfold toLinear at 1.
  destruct (in_bounds s p) eqn:Hp; simpl; [|reflexivity].
  unfold toLinear at 1.
  destruct (in_bounds s q) eqn:Hq; simpl; [|reflexivity].
  destruct Hin as [<-|Hin]; [congruence|].
  destruct Hin as [<-|Hin]; [congruence|].
  destruct rest as [|r rest]; [destruct Hin|].
  rewrite IH; [reflexivity| right; exact Hin | simpl; lia].
Qed.


Lemma accumulate_app (s : VolumeShape) (m : SparseMatrix)
    (ts1 ts2 : list Trajectory) :
  accumulate s m (ts1 ++ ts2) = res_bind (accumulate s m ts1)
                                   (fun m' => accumulate s m' ts2).
Proof.
  revert m. induction ts1 as [|t ts1 IH]; intros m; [reflexivity|].
  simpl. rewrite res_bind_assoc. destruct (add s m t); simpl; auto.
Qed.

(* ------------------------------------------------------------------ *)
(** ** SparseGraphAccumulator: weights *)

Lemma weight_ext (m1 m2 : SparseMatrix) :
  (forall k, weight m1 k = weight m2 k) -> m1 = m2.
Proof.
  intros H. apply map_eq. intros k. specialize (H k). unfold weight in H.
  destruct (m1 !! k), (m2 !! k); congruence.
Qed.

Lemma weight_incr (m : SparseMatrix) (k i : Z * Z) :
  weight (incr m k) i = weight m i + (if decide (k = i) then 1 else 0).
Proof.
  unfold weight, incr. case_decide as Hki.
  - subst. rewrite lookup_insert_eq. destruct (m !! i); lia.
  - rewrite lookup_insert_ne by exact Hki. destruct (m !! i); lia.
Qed.

Lemma weight_merge (m1 m2 : SparseMatrix) (i : Z * Z) :
  weight (merge m1 m2) i = weight m1 i + weight m2 i.
Proof.
  unfold weight, merge. rewrite lookup_union_with.
  destruct (m1 !! i), (m2 !! i); simpl; lia.
Qed.

Lemma weight_empty (i : Z * Z) : weight ∅ i = 0.
Proof. reflexivity. Qed.

Ltac weights := apply weight_ext; intros ?;
  repeat rewrite ?weight_incr, ?weight_merge, ?weight_empty; lia.

Lemma incr_comm (m : SparseMatrix) (k1 k2 : Z * Z) :
  incr (incr m k1) k2 = incr (incr m k2) k1.
Proof. weights. Qed.


Lemma merge_empty_r (m : SparseMatrix) : merge m ∅ = m.
Proof. weights. Qed.

Lemma merge_assoc (m1 m2 m3 : SparseMatrix) :
  merge m1 (merge m2 m3) = merge (merge m1 m2) m3.
Proof. weights. Qed.


Lemma foldl_incr_merge (m : SparseMatrix) (es : list (Z * Z)) :
  foldl incr m es = merge m (foldl incr ∅ es).
Proof.
  revert m. induction es as [|k es IH]; intros m; simpl.
  - by rewrite merge_empty_r.
  - rewrite IH, (IH (incr ∅ k)). weights.
Qed.

Lemma foldl_incr_perm (m : SparseMatrix) (es es' : list (Z * Z)) :
  es ≡ₚ es' -> foldl incr m es = foldl incr m es'.
Proof.
  intros Hp. revert m. induction Hp as [|k es es' Hp IH|k1 k2 es|es es' es'' _ IH1 _ IH2];
    intros m; simpl.
  - reflexivity.
  - apply IH.
  - by rewrite incr_comm.
  - by rewrite IH1, IH2.
Qed.

(** Adding two trajectories in either order gives the same outcome. *)
Lemma add_comm (s : VolumeShape) (m : SparseMatrix) (t1 t2 : Trajectory) :
  res_bind (add s m t1) (fun m1 => add s m1 t2)
  = res_bind (add s m t2) (fun m2 => add s m2 t1).
Proof.
  rewrite !add_edges. unfold res_map.
  destruct (edges s t1) as [es1|e1] eqn:E1, (edges s t2) as [es2|e2] eqn:E2;
    simpl; rewrite ?add_edges; unfold res_map; rewrite ?E1, ?E2; simpl.
  - f_equal. rewrite <- !foldl_app. apply foldl_incr_perm.
    apply Permutation_app_comm.
  - reflexivity.
  - reflexivity.
  - apply edges_err in E1, E2. by subst.
Qed.

Lemma accumulate_perm (s : VolumeShape) (m : SparseMatrix)
    (ts ts' : list Trajectory) :
  ts ≡ₚ ts' -> accumulate s m ts = accumulate s m ts'.
Proof.
  intros Hp. revert m.
  induction Hp as [|t ts ts' Hp IH|t1 t2 ts|ts ts' ts'' _ IH1 _ IH2];
    intros m; simpl.
  - reflexivity.
  - destruct (add s m t); simpl; auto.
  - rewrite <- !(res_bind_assoc _ (fun m1 => add s m1 _)).
    rewrite add_comm. reflexivity.
  - by rewrite IH1, IH2.
Qed.

Lemma accumulate_merge (s : VolumeShape) (ts : list Trajectory)
    (m m0 m2 : SparseMatrix) :
  accumulate s m0 ts = Ok m2 -> accumulate s (merge m m0) ts = Ok (merge m m2).
Proof.
  revert m0. induction ts as [|t ts IH]; intros m0; simpl.
  - congruence.
  - rewrite !add_edges. unfold res_map.
    destruct (edges s t) as [es|e]; simpl; [|discriminate].
    intros H. rewrite (foldl_incr_merge (merge m m0)), <- merge_assoc,
      <- foldl_incr_merge. by apply IH.
Qed.

Lemma sum_weights_incr (m : SparseMatrix) (k : Z * Z) :
  sum_weights (incr m k) = sum_weights m + 1.
Proof.
  unfold sum_weights, incr.
  destruct (m !! k) as [w|] eqn:Hk.
  - rewrite (map_fold_delete_L _ _ k w m) by (auto || intros; lia).
    rewrite <- insert_delete_eq.
    rewrite map_fold_insert_L by (auto || apply lookup_delete_eq || intros; lia).
    rewrite Pos2Z.inj_succ. lia.
  - rewrite map_fold_insert_L by (auto || intros; lia). lia.
Qed.

Lemma sum_weights_foldl (m : SparseMatrix) (es : list (Z * Z)) :
  sum_weights (foldl incr m es) = sum_weights m + Z.of_nat (length es).
Proof.
  revert m. induction es as [|k es IH]; intros m; simpl.
  - lia.
  - rewrite IH, sum_weights_incr. lia.
Qed.

(* ------------------------------------------------------------------ *)
(** ** ChunkedMatrixWriter: grouping *)

Lemma group_chunks_foldr (m : SparseMatrix) (cs : Z * Z) :
  group_chunks m cs = foldr (group_step cs) ∅ (map_to_list m).
Proof. reflexivity. Qed.

Lemma group_nonempty (cs : Z * Z) (L : list ((Z * Z) * positive))
    (ck : Z * Z) (es : list ChunkEntry) :
  foldr (group_step cs) ∅ L !! ck = Some es -> es <> [].
Proof.
  induction L as [|kw L IH]; simpl.
  - rewrite lookup_empty. discriminate.
  - unfold group_step. destruct (chunk_entry cs kw) as [ck' e].
    destruct (decide (ck' = ck)) as [->|Hne].
    + rewrite lookup_insert_eq. intros [= <-]. discriminate.
    + rewrite lookup_insert_ne by exact Hne. exact IH.
Qed.

Global Instance chunk_cells_proper : Proper ((≡ₚ) ==> (≡ₚ)) chunk_cells.
Proof. intros l1 l2 H. unfold chunk_cells. by rewrite H. Qed.

Lemma group_cells (cs : Z * Z) (L : list ((Z * Z) * positive)) :
  chunk_cells (map_to_list (foldr (group_step cs) ∅ L))
  ≡ₚ map (chunk_entry cs) L.
Proof.
  induction L as [|kw L IH].
  - reflexivity.
  - cbn [foldr map]. set (G := foldr (group_step cs) ∅ L) in *.
    unfold group_step at 1. destruct (chunk_entry cs kw) as [ck e] eqn:Hkw.
    destruct (G !! ck) as [es|] eqn:Hck; cbn [default].
    + rewrite <- insert_delete_eq.
      rewrite map_to_list_insert by apply lookup_delete_eq.
      rewrite <- (map_to_list_delete G ck es Hck) in IH.
      unfold chunk_cells in *. cbn [flat_map map fst snd] in *.
      constructor. exact IH.
    + rewrite map_to_list_insert by exact Hck.
      unfold chunk_cells in *. cbn [flat_map map fst snd app] in *.
      constructor. exact IH.
Qed.

(* ------------------------------------------------------------------ *)
(** ** ChunkedMatrixWriter: order and format *)

Lemma chunk_key_le_spec (k1 k2 : Z * Z) :
  chunk_key_le k1 k2 = true <-> k1.1 < k2.1 \/ (k1.1 = k2.1 /\ k1.2 <= k2.2).
Proof.
  unfold chunk_key_le.
  rewrite orb_true_iff, andb_true_iff, Z.ltb_lt, Z.eqb_eq, Z.leb_le. tauto.
Qed.

Lemma chunk_key_lt_spec (k1 k2 : Z * Z) :
  chunk_key_lt k1 k2 = true <-> k1.1 < k2.1 \/ (k1.1 = k2.1 /\ k1.2 < k2.2).
Proof.
  unfold chunk_key_lt.
  rewrite orb_true_iff, andb_true_iff, !Z.ltb_lt, Z.eqb_eq. tauto.
Qed.

Global Instance chunk_le_total : Total chunk_le.
Proof.
  intros [[a1 b1] e1] [[a2 b2] e2]. unfold chunk_le.
  rewrite !chunk_key_le_spec. simpl. lia.
Qed.

Global Instance chunk_le_trans : Transitive chunk_le.
Proof.
  intros [[a1 b1] e1] [[a2 b2] e2] [[a3 b3] e3]. unfold chunk_le.
  rewrite !chunk_key_le_spec. simpl. lia.
Qed.

Lemma write_chunks_perm (m : SparseMatrix) (cs : Z * Z) :
  write_chunks m cs ≡ₚ map_to_list (group_chunks m cs).
Proof. apply merge_sort_Permutation. Qed.

Lemma fmap_fst_map {A B} (l : list (A * B)) : l.*1 = map fst l.
Proof. induction l as [|x l IH]; [reflexivity|]. cbn. by f_equal. Qed.

Lemma write_chunks_nodup (m : SparseMatrix) (cs : Z * Z) :
  NoDup (map fst (write_chunks m cs)).
Proof.
  rewrite <- fmap_fst_map, (write_chunks_perm m cs).
  apply NoDup_fst_map_to_list.
Qed.

Lemma write_chunks_nonempty (m : SparseMatrix) (cs : Z * Z) :
  Forall (fun c : Chunk => c.2 <> []) (write_chunks m cs).
Proof.
  apply Forall_forall. intros [ck es] Hin. simpl.
  rewrite (write_chunks_perm m cs) in Hin.
  apply elem_of_map_to_list in Hin.
  rewrite group_chunks_foldr in Hin. exact (group_nonempty _ _ _ _ Hin).
Qed.

Lemma write_chunks_sorted (m : SparseMatrix) (cs : Z * Z) :
  StronglySorted (fun k1 k2 => chunk_key_lt k1 k2 = true)
                 (map fst (write_chunks m cs)).
Proof.
  assert (Hs := StronglySorted_merge_sort chunk_le
                  (map_to_list (group_chunks m cs))).
  assert (Hn := write_chunks_nodup m cs).
  unfold write_chunks in *.
  induction Hs as [|c l Hs IH Hall]; simpl; constructor.
  - apply IH. simpl in Hn. by apply NoDup_cons in Hn as [_ Hn].
  - simpl in Hn. apply NoDup_cons in Hn as [Hnot _].
    apply Forall_map. apply Forall_forall. intros c' Hc'.
    pose proof (proj1 (Forall_forall _ _) Hall c' Hc') as Hle.
    unfold chunk_le in Hle. rewrite chunk_key_le_spec in Hle.
    apply chunk_key_lt_spec.
    assert (c.1 <> c'.1).
    { intros Heq. apply Hnot. rewrite Heq. apply list_elem_of_In.
      apply in_map. by apply list_elem_of_In. }
    destruct c as [[a1 b1] e1], c' as [[a2 b2] e2]; simpl in *.
    assert ((a1, b1) <> (a2, b2)) by assumption.
    destruct (Z.eq_dec a1 a2); [|lia]. subst.
    destruct (Z.eq_dec b1 b2); [subst; contradiction|lia].
Qed.

Lemma read_entries_emit (es : list ChunkEntry) (rest : list Rec) :
  read_entries (length es) (map (fun '(lr, lc, w) => Entry lr lc w) es ++ rest)
  = Some (es, rest).
Proof.
  induction es as [|[[lr lc] w] es IH]; [reflexivity|]. simpl. by rewrite IH.
Qed.

Lemma read_chunks_fuel_emit (chs : list Chunk) (fuel : nat) :
  (length chs <= fuel)%nat ->
  read_chunks_fuel fuel (concat (map emit_chunk chs)) = Some chs.
Proof.
  revert fuel. induction chs as [|[[a b] es] chs IH]; intros fuel Hf.
  - by destruct fuel.
  - destruct fuel as [|fuel]; [simpl in Hf; lia|].
    cbn [map concat emit_chunk]. rewrite <- app_comm_cons.
    unfold read_chunks_fuel; fold read_chunks_fuel.
    rewrite read_entries_emit, IH by (simpl in Hf; lia). reflexivity.
Qed.

Lemma emit_length (chs : list Chunk) :
  (length chs <= length (concat (map emit_chunk chs)))%nat.
Proof.
  induction chs as [|[[a b] es] chs IH]; simpl; [lia|].
  rewrite length_app. simpl. lia.
Qed.

Lemma read_writeForSciDB (m : SparseMatrix) (cs : Z * Z) :
  read_chunks (writeForSciDB m cs) = Some (write_chunks m cs).
Proof.
  unfold read_chunks, writeForSciDB. apply read_chunks_fuel_emit, emit_length.
Qed.

Lemma write_chunks_cells (m : SparseMatrix) (cs : Z * Z) :
  chunk_cells (write_chunks m cs) ≡ₚ map (chunk_entry cs) (map_to_list m).
Proof.
  rewrite (write_chunks_perm m cs), group_chunks_foldr. apply group_cells.
Qed.

(* ------------------------------------------------------------------ *)
(** ** The driver: traces *)

Lemma consumed_app (tr1 tr2 : list event) :
  consumed (tr1 ++ tr2) = consumed tr1 ++ consumed tr2.
Proof. induction tr1 as [|[] tr1 IH]; simpl; rewrite ?IH; reflexivity. Qed.

Lemma added_app (tr1 tr2 : list event) :
  added (tr1 ++ tr2) = added tr1 ++ added tr2.
Proof. induction tr1 as [|[] tr1 IH]; simpl; rewrite ?IH; reflexivity. Qed.

Lemma write_count_app (tr1 tr2 : list event) :
  write_count (tr1 ++ tr2) = (write_count tr1 + write_count tr2)%nat.
Proof. unfold write_count. by rewrite filter_app, length_app. Qed.

Lemma progress_events (count : Z) :
  let pr := if count mod 1000 =? 0 then [EvProgress count] else [] in
  consumed pr = [] /\ added pr = [] /\ write_count pr = 0%nat.
Proof. simpl. destruct (count mod 1000 =? 0); auto. Qed.

(** Every run of the loop: no chunk output, and on normal exit each drawn
    fiber has been added and the graph is their accumulation. *)
Lemma fiber_loop_trace (s : VolumeShape) (cap : Z)
    (fibers : list (result Trajectory)) :
  forall count g,
  let '(o, g', tr) := fiber_loop s cap count g fibers in
  write_count tr = 0%nat /\
  (o = None -> consumed tr = added tr /\ accumulate s g (added tr) = Ok g').
Proof.
  induction fibers as [|[f|e] fibers IH]; intros count g; simpl.
  - auto.
  - destruct (add s g f) as [g1|e] eqn:Hadd.
    + destruct ((0 <? cap) && (cap <=? count + 1)).
      * simpl. rewrite Hadd. simpl. auto.
      * specialize (IH (count + 1) g1).
        destruct (fiber_loop s cap (count + 1) g1 fibers) as [[o g'] tr].
        destruct (progress_events (count + 1)) as (Hc & Ha & Hw).
        destruct IH as [IHw IHo].
        revert Hc Ha Hw.
        generalize (if (count + 1) mod 1000 =? 0 then [EvProgress (count + 1)]
                    else []) as pr.
        intros pr Hc Ha Hw.
        change (EvConsume f :: EvAdd f :: pr ++ tr)
          with ([EvConsume f; EvAdd f] ++ pr ++ tr).
        rewrite !write_count_app, !consumed_app, !added_app, Hc, Ha, Hw, IHw.
        split; [reflexivity|].
        intros Ho. destruct (IHo Ho) as [IHc IHa].
        simpl. rewrite Hadd. simpl. split; congruence.
    + simpl. split; [reflexivity|discriminate].
  - split; [reflexivity|discriminate].
Qed.

(** With a positive cap and a source of well-formed fibers, the loop draws
    and adds exactly the first [cap - count] of them. *)
Lemma fiber_loop_capped (s : VolumeShape) (cap : Z) (fs : list Trajectory) :
  0 < cap -> all_in_bounds s fs ->
  forall count g, 0 <= count < cap ->
  let '(o, g', tr) := fiber_loop s cap count g (map Ok fs) in
  o = None /\
  consumed tr = firstn (Z.to_nat (cap - count)) fs /\
  added tr = firstn (Z.to_nat (cap - count)) fs.
Proof.
  intros Hcap Hall. induction fs as [|f fs IH]; intros count g Hcount; simpl.
  - rewrite firstn_nil. auto.
  - inversion Hall as [|? ? Hf Hfs]; subst.
    destruct (edges_ok s f Hf) as (es & Hes & _).
    rewrite add_edges, Hes. simpl.
    replace (Z.to_nat (cap - count)) with (S (Z.to_nat (cap - (count + 1))))
      by lia.
    destruct ((0 <? cap) && (cap <=? count + 1)) eqn:Hstop.
    + apply andb_true_iff in Hstop as [_ Hstop]. apply Z.leb_le in Hstop.
      replace (Z.to_nat (cap - (count + 1))) with 0%nat by lia.
      simpl. auto.
    + assert (Hlt : count + 1 < cap).
      { apply andb_false_iff in Hstop as [H|H];
          [apply Z.ltb_ge in H|apply Z.leb_gt in H]; lia. }
      specialize (IH Hfs (count + 1) (foldl incr g es) ltac:(lia)).
      destruct (fiber_loop s cap (count + 1) (foldl incr g es) (map Ok fs))
        as [[o g'] tr].
      destruct IH as (Ho & Hc & Ha).
      destruct (progress_events (count + 1)) as (Hpc & Hpa & _).
      cbn [consumed added firstn]. rewrite consumed_app, added_app, Hpc, Hpa.
      simpl. rewrite Hc, Ha. auto.
Qed.

Lemma write_count_zero_not_in (tr : list event) (cs : Z * Z) (out : list Rec) :
  write_count tr = 0%nat -> ~ In (EvWrite cs out) tr.
Proof.
  unfold write_count. induction tr as [|ev tr IH]; simpl; [tauto|].
  destruct ev; simpl; intros H [Heq|Hin]; try discriminate; by eapply IH.
Qed.

Lemma accumulate_err (s : VolumeShape) (t : Trajectory) (ts : list Trajectory) :
  In t ts -> edges s t = Err OutOfBoundsError ->
  forall m, accumulate s m ts = Err OutOfBoundsError.
Proof.
  intros Hin Ht. induction ts as [|t0 ts IH]; [destruct Hin|]. intros m.
  simpl. rewrite add_edges. unfold res_map.
  destruct (edges s t0) as [es|e] eqn:E; simpl.
  - destruct Hin as [->|Hin]; [congruence|]. by apply IH.
  - apply edges_err in E. by subst.
Qed.

Lemma sum_weights_empty : sum_weights ∅ = 0.
Proof. reflexivity. Qed.

(* ------------------------------------------------------------------ *)
(** ** Properties of the pipeline *)

(** C1: for a valid shape and in-bounds voxels p (row) and q (column),
    linearising, splitting the key (linear p, linear q) into chunk and local
    coordinates for any chunk size, reassembling it and mapping back to 3D
    recovers p and q exactly; and the inverse mapping followed by
    [toLinear] is the identity on [0, volume). *)
Theorem voxel_index_roundtrip (s : VolumeShape) (cs : Z * Z) (p q : Coord) :
  valid_shape s -> in_bounds s p = true -> in_bounds s q = true ->
  (exists r c,
     toLinear p s = Ok r /\ toLinear q s = Ok c /\
     fromChunkCoord (toChunkCoord (r, c) cs) cs = (r, c) /\
     fromLinear r s = p /\ fromLinear c s = q) /\
  (forall l, 0 <= l < volume s -> toLinear (fromLinear l s) s = Ok l).
Proof.
  intros Hs Hp Hq. split.
  - destruct (toLinear_in_bounds s p Hp) as (r & Hr & _).
    destruct (toLinear_in_bounds s q Hq) as (c & Hc & _).
    exists r, c. repeat split; auto using fromChunkCoord_toChunkCoord.
    + by apply fromLinear_toLinear.
    + by apply fromLinear_toLinear.
  - intros l Hl. by apply toLinear_fromLinear.
Qed.

Lemma voxel_index_roundtrip_witness :
  (exists r c,
     toLinear (mkCoord 1 2 3) (mkShape 4 5 6) = Ok r /\
     toLinear (mkCoord 3 0 5) (mkShape 4 5 6) = Ok c /\
     fromChunkCoord (toChunkCoord (r, c) (7, 16)) (7, 16) = (r, c) /\
     fromLinear r (mkShape 4 5 6) = mkCoord 1 2 3 /\
     fromLinear c (mkShape 4 5 6) = mkCoord 3 0 5) /\
  (forall l, 0 <= l < volume (mkShape 4 5 6) ->
     toLinear (fromLinear l (mkShape 4 5 6)) (mkShape 4 5 6) = Ok l).
Proof.
  apply (voxel_index_roundtrip (mkShape 4 5 6) (7, 16)
           (mkCoord 1 2 3) (mkCoord 3 0 5)).
  - unfold valid_shape. simpl. lia.
  - reflexivity.
  - reflexivity.
Defined.

(** C2: accumulating trajectories whose voxels are all in bounds succeeds,
    and the weights of the final matrix sum to the number of
    consecutive-point pairs, the sum of max(pointCount - 1, 0). *)
Theorem accumulate_conservation (s : VolumeShape) (ts : list Trajectory) :
  all_in_bounds s ts ->
  exists m, accumulate s ∅ ts = Ok m /\
            sum_weights m = fold_right (fun t acc => pair_count t + acc) 0 ts.
Proof.
  intros Hall.
  assert (Hgen : forall m0, exists m, accumulate s m0 ts = Ok m /\
            sum_weights m = sum_weights m0
                            + fold_right (fun t acc => pair_count t + acc) 0 ts).
  2:{ destruct (Hgen ∅) as (m & Hm & Hs). exists m.
      rewrite Hs, sum_weights_empty. auto. }
  induction ts as [|t ts IH]; intros m0; simpl.
  - exists m0. split; [reflexivity|lia].
  - inversion Hall as [|? ? Ht Hts]; subst.
    destruct (edges_ok s t Ht) as (es & Hes & Hlen).
    rewrite add_edges, Hes. simpl.
    destruct (IH Hts (foldl incr m0 es)) as (m & Hm & Hsum).
    exists m. split; [exact Hm|].
    rewrite Hsum, sum_weights_foldl, Hlen. unfold pair_count. lia.
Qed.

Lemma accumulate_conservation_witness :
  exists m, accumulate (mkShape 4 4 4) ∅
              [[mkCoord 0 0 0; mkCoord 1 0 0; mkCoord 1 0 0];
               [mkCoord 3 3 3]; []; [mkCoord 0 0 0; mkCoord 1 0 0]] = Ok m /\
            sum_weights m =
            fold_right (fun t acc => pair_count t + acc) 0
              [[mkCoord 0 0 0; mkCoord 1 0 0; mkCoord 1 0 0];
               [mkCoord 3 3 3]; []; [mkCoord 0 0 0; mkCoord 1 0 0]].
Proof.
  apply accumulate_conservation.
  repeat constructor.
Defined.

(** C3: the final matrix does not depend on the order in which the
    trajectories are fed; and accumulating the parts of any partition
    separately and merging the shards by adding weights gives the matrix
    of the whole. *)
Theorem accumulation_order_independent (s : VolumeShape) :
  (forall (m : SparseMatrix) (ts ts' : list Trajectory),
     ts ≡ₚ ts' -> accumulate s m ts = accumulate s m ts') /\
  (forall (ts ts1 ts2 : list Trajectory) (m1 m2 : SparseMatrix),
     ts ≡ₚ ts1 ++ ts2 ->
     accumulate s ∅ ts1 = Ok m1 -> accumulate s ∅ ts2 = Ok m2 ->
     accumulate s ∅ ts = Ok (merge m1 m2)).
Proof.
  split.
  - intros m ts ts' Hp. by apply accumulate_perm.
  - intros ts ts1 ts2 m1 m2 Hp H1 H2.
    rewrite (accumulate_perm s ∅ ts (ts1 ++ ts2) Hp), accumulate_app, H1.
    simpl. pose proof (accumulate_merge s ts2 m1 ∅ m2 H2) as H.
    by rewrite merge_empty_r in H.
Qed.

Lemma accumulation_order_independent_witness :
  accumulate (mkShape 4 4 4) ∅
    [[mkCoord 1 0 0; mkCoord 1 0 0]; [mkCoord 0 0 0; mkCoord 1 0 0];
     [mkCoord 0 0 0; mkCoord 1 0 0]]
  = Ok (merge (<[(0, 1) := 1%positive]> ∅)
              (<[(0, 1) := 1%positive]> (<[(1, 1) := 1%positive]> ∅))).
Proof.
  apply (proj2 (accumulation_order_independent (mkShape 4 4 4))
           _ [[mkCoord 0 0 0; mkCoord 1 0 0]]
           [[mkCoord 1 0 0; mkCoord 1 0 0]; [mkCoord 0 0 0; mkCoord 1 0 0]]).
  - simpl. apply perm_swap.
  - vm_compute. reflexivity.
  - vm_compute. reflexivity.
Defined.

(** C4: a trajectory with fewer than two points (one point, or none)
    leaves the matrix unchanged, and [add] succeeds on it. *)
Theorem add_short_trajectory_noop (s : VolumeShape) (m : SparseMatrix)
    (t : Trajectory) :
  (length t < 2)%nat -> add s m t = Ok m.
Proof.
  destruct t as [|p [|q rest]]; simpl; intros H; [reflexivity|reflexivity|lia].
Qed.

Lemma add_short_trajectory_noop_witness :
  add (mkShape 4 4 4) (<[(0, 1) := 2%positive]> ∅) [mkCoord 9 0 0]
  = Ok (<[(0, 1) := 2%positive]> ∅).
Proof. apply add_short_trajectory_noop. simpl. lia. Defined.

(** C5: a coordinate with a component negative or at least the matching
    dimension (x = dimX included) makes [toLinear] raise
    [OutOfBoundsError], never a wrapped or clamped index, and accumulating
    any batch holding a trajectory of two or more points through that
    voxel raises the same error; an in-bounds coordinate is linearised to
    an index in [0, volume). *)
Theorem toLinear_bounds_check (s : VolumeShape) (c : Coord) :
  ((cx c < 0 \/ dimX s <= cx c \/ cy c < 0 \/ dimY s <= cy c \/
    cz c < 0 \/ dimZ s <= cz c) ->
     toLinear c s = Err OutOfBoundsError /\
     forall (m : SparseMatrix) (t : Trajectory) (ts : list Trajectory),
       In t ts -> In c t -> (2 <= length t)%nat ->
       accumulate s m ts = Err OutOfBoundsError) /\
  ((0 <= cx c < dimX s /\ 0 <= cy c < dimY s /\ 0 <= cz c < dimZ s) ->
     exists l, toLinear c s = Ok l /\ 0 <= l < volume s).
Proof.
  split.
  - intros Hout.
    assert (Hb : in_bounds s c = false).
    { destruct (in_bounds s c) eqn:Hb; [|reflexivity].
      apply in_bounds_spec in Hb. lia. }
    split.
    + unfold toLinear. by rewrite Hb.
    + intros m t ts Hts Hct Hlen.
      apply (accumulate_err s t); [exact Hts|].
      by apply (edges_out s t c).
  - intros Hin. apply toLinear_in_bounds. by apply in_bounds_spec.
Qed.

Lemma toLinear_bounds_check_witness :
  toLinear (mkCoord 4 0 0) (mkShape 4 4 4) = Err OutOfBoundsError /\
  accumulate (mkShape 4 4 4) ∅
    [[mkCoord 0 0 0; mkCoord 1 0 0]; [mkCoord 3 0 0; mkCoord 4 0 0]]
  = Err OutOfBoundsError.
Proof.
  destruct (proj1 (toLinear_bounds_check (mkShape 4 4 4) (mkCoord 4 0 0)))
    as [H1 H2].
  - simpl. lia.
  - split; [exact H1|].
    apply (H2 ∅ [mkCoord 3 0 0; mkCoord 4 0 0]); simpl; auto.
Defined.

(** C6: reading back the output of [writeForSciDB], the cells of the
    emitted chunks, each (chunkRow, chunkCol, localRow, localCol, weight),
    are exactly the non-zero matrix entries split by [toChunkCoord], each
    once; no chunk coordinate is emitted twice and no chunk is empty. *)
Theorem chunk_completeness (m : SparseMatrix) (cs : Z * Z) :
  exists chs,
    read_chunks (writeForSciDB m cs) = Some chs /\
    chunk_cells chs ≡ₚ map (chunk_entry cs) (map_to_list m) /\
    NoDup (map fst chs) /\
    Forall (fun c : Chunk => c.2 <> []) chs.
Proof.
  exists (write_chunks m cs). repeat split.
  - apply read_writeForSciDB.
  - apply write_chunks_cells.
  - apply write_chunks_nodup.
  - apply write_chunks_nonempty.
Qed.

(** C7: the output of [writeForSciDB] reads as a sequence of chunks, each
    a header with its (chunkRow, chunkCol) and entry count followed by
    exactly that many (localRow, localCol, weight) triples; the chunks are
    non-empty and come in strictly ascending chunkRow, then chunkCol,
    order. *)
Theorem chunk_emission_order (m : SparseMatrix) (cs : Z * Z) :
  exists chs,
    read_chunks (writeForSciDB m cs) = Some chs /\
    StronglySorted (fun k1 k2 => chunk_key_lt k1 k2 = true) (map fst chs) /\
    Forall (fun c : Chunk => c.2 <> []) chs.
Proof.
  exists (write_chunks m cs). repeat split.
  - apply read_writeForSciDB.
  - apply write_chunks_sorted.
  - apply write_chunks_nonempty.
Qed.

(** C8 (as the code behaves): with a positive [--count] cap N, an output
    file that opens and a
    source of M fibers that all decode and lie in the volume, the run
    finishes, the fibers drawn from the reader and the fibers added to the
    graph are both exactly the first min(N, M): the N-th fiber is added,
    and no further fiber is drawn. *)
Theorem count_cap_first_fibers (cap : Z) (src : FiberSource)
    (fs : list Trajectory) :
  0 < cap -> src_fibers src = map Ok fs -> all_in_bounds (src_shape src) fs ->
  let '(o, tr) := main cap (Ok src) true in
  o = Finished /\
  consumed tr = firstn (Z.to_nat cap) fs /\
  added tr = firstn (Z.to_nat cap) fs /\
  length (added tr) = Nat.min (Z.to_nat cap) (length fs).
Proof.
  intros Hcap Hsrc Hall. unfold main. simpl. rewrite Hsrc.
  pose proof (fiber_loop_capped (src_shape src) cap fs Hcap Hall 0 ∅
                ltac:(lia)) as Hloop.
  destruct (fiber_loop (src_shape src) cap 0 ∅ (map Ok fs)) as [[o g'] tr].
  destruct Hloop as (-> & Hc & Ha). rewrite Z.sub_0_r in Hc, Ha.
  cbn [consumed added]. rewrite consumed_app, added_app, Hc, Ha. simpl.
  rewrite !app_nil_r. repeat split. by rewrite length_firstn.
Qed.

Lemma count_cap_first_fibers_witness :
  let '(o, tr) :=
    main 2 (Ok (mkSource (mkShape 4 4 4)
                 (map Ok [[mkCoord 0 0 0; mkCoord 1 0 0]; [mkCoord 1 0 0];
                          [mkCoord 2 2 2; mkCoord 3 3 3]]))) true in
  o = Finished /\
  consumed tr = firstn (Z.to_nat 2)
    [[mkCoord 0 0 0; mkCoord 1 0 0]; [mkCoord 1 0 0];
     [mkCoord 2 2 2; mkCoord 3 3 3]] /\
  added tr = firstn (Z.to_nat 2)
    [[mkCoord 0 0 0; mkCoord 1 0 0]; [mkCoord 1 0 0];
     [mkCoord 2 2 2; mkCoord 3 3 3]] /\
  length (added tr) = Nat.min (Z.to_nat 2) 3%nat.
Proof.
  apply count_cap_first_fibers.
  - lia.
  - reflexivity.
  - repeat constructor.
Defined.

(** C8, counterexample: with [--count 2] and two fibers, the driver does
    not always add the first two. When the second fiber has a point
    outside the 4x4x4 volume, its [add] raises and only the first fiber is
    added. When the output file cannot be opened, [sys.exit(-1)] ends the
    run before any fiber is added. *)
Lemma count_cap_not_reached_on_failure :
  added (main 2 (Ok (mkSource (mkShape 4 4 4)
            (map Ok [[mkCoord 0 0 0; mkCoord 1 0 0];
                     [mkCoord 2 2 2; mkCoord 4 0 0]]))) true).2
  <> firstn (Z.to_nat 2) [[mkCoord 0 0 0; mkCoord 1 0 0];
                          [mkCoord 2 2 2; mkCoord 4 0 0]] /\
  added (main 2 (Ok (mkSource (mkShape 4 4 4)
            (map Ok [[mkCoord 0 0 0; mkCoord 1 0 0];
                     [mkCoord 2 2 2; mkCoord 3 3 3]]))) false).2
  <> firstn (Z.to_nat 2) [[mkCoord 0 0 0; mkCoord 1 0 0];
                          [mkCoord 2 2 2; mkCoord 3 3 3]].
Proof. split; vm_compute; intros H; inversion H. Qed.




(** C10: whatever the [--count] value, the input and the output file, any
    call to [writeForSciDB] made by [main] receives the chunk dimensions
    [65536, 65536]. *)
Theorem chunk_dims_fixed (cap : Z) (reader : result FiberSource) (out_ok : bool)
    (cs : Z * Z) (out : list Rec) :
  In (EvWrite cs out) (main cap reader out_ok).2 -> cs = (65536, 65536).
Proof.
  destruct reader as [src|e]; simpl; [|tauto].
  destruct out_ok; simpl; [|intros [H|[]]; discriminate].
  pose proof (fiber_loop_trace (src_shape src) cap (src_fibers src) 0 ∅)
    as Hloop.
  destruct (fiber_loop (src_shape src) cap 0 ∅ (src_fibers src))
    as [[[e|] g'] tr]; destruct Hloop as [Hw _]; simpl.
  - intros [H|H]; [discriminate|].
    exact (False_ind _ (write_count_zero_not_in tr cs out Hw H)).
  - intros [H|H]; [discriminate|]. apply in_app_or in H as [H|[H|[]]].
    + exact (False_ind _ (write_count_zero_not_in tr cs out Hw H)).
    + congruence.
Qed.

Lemma chunk_dims_fixed_witness :
  In (EvWrite (65536, 65536) (writeForSciDB ∅ (65536, 65536)))
     (main 5 (Ok (mkSource (mkShape 4 4 4) [Ok [mkCoord 9 9 9]])) true).2 /\
  (65536, 65536) = (65536, 65536).
Proof.
  assert (H : In (EvWrite (65536, 65536) (writeForSciDB ∅ (65536, 65536)))
     (main 5 (Ok (mkSource (mkShape 4 4 4) [Ok [mkCoord 9 9 9]])) true).2).
  { vm_compute. auto. }
  split; [exact H|].
  exact (chunk_dims_fixed _ _ _ _ _ H).
Defined.

(* ------------------------------------------------------------------ *)
(** ** The driver loop over a prefix of well-formed fibers *)

Lemma progress_app (tr1 tr2 : list event) :
  progress (tr1 ++ tr2) = progress tr1 ++ progress tr2.
Proof. induction tr1 as [|[] tr1 IH]; simpl; rewrite ?IH; reflexivity. Qed.

Lemma progress_expected_S (count : Z) (k : nat) :
  progress_expected count (S k)
  = (if (count + 1) mod 1000 =? 0 then [count + 1] else [])
    ++ progress_expected (count + 1) k.
Proof.
  unfold progress_expected. rewrite <- cons_seq, <- seq_shift.
  cbn [map]. rewrite map_map, filter_cons.
  replace (count + Z.of_nat 1) with (count + 1) by lia.
  assert (Hm : map (fun i => count + Z.of_nat (S i)) (seq 1 k)
               = map (fun i => count + 1 + Z.of_nat i) (seq 1 k)).
  { apply map_ext. intros i. lia. }
  rewrite Hm. destruct ((count + 1) mod 1000 =? 0) eqn:E.
  - rewrite decide_True by exact I. reflexivity.
  - rewrite decide_False by (intros []). reflexivity.
Qed.

Lemma fiber_loop_valid_prefix (s : VolumeShape) (cap : Z) (fs : list Trajectory)
    (rest : list (result Trajectory)) :
  all_in_bounds s fs ->
  forall count g, (cap <= 0 \/ count + Z.of_nat (length fs) < cap) ->
  exists g1 tr1,
    accumulate s g fs = Ok g1 /\ consumed tr1 = fs /\ added tr1 = fs /\
    write_count tr1 = 0%nat /\
    progress tr1 = progress_expected count (length fs) /\
    fiber_loop s cap count g (map Ok fs ++ rest) =
      (let '(o, g', tr) :=
         fiber_loop s cap (count + Z.of_nat (length fs)) g1 rest in
       (o, g', tr1 ++ tr)).
Proof.
  intros Hall. induction fs as [|f fs IH]; intros count g Hcap.
  - exists g, []. repeat split. simpl. rewrite Z.add_0_r.
    by destruct (fiber_loop s cap count g rest) as [[o g'] tr].
  - inversion Hall as [|? ? Hf Hfs]; subst.
    destruct (edges_ok s f Hf) as (es & Hes & _).
    assert (Hadd : add s g f = Ok (foldl incr g es)).
    { by rewrite add_edges, Hes. }
    assert (Hgo : (0 <? cap) && (cap <=? count + 1) = false).
    { simpl length in Hcap.
      destruct (0 <? cap) eqn:H1; [|reflexivity]. simpl.
      apply Z.leb_gt. apply Z.ltb_lt in H1. lia. }
    destruct (IH Hfs (count + 1) (foldl incr g es)) as
        (g1 & tr1 & Hacc & Hc & Ha & Hw & Hp & Hloop).
    { simpl length in Hcap. lia. }
    set (pr := if (count + 1) mod 1000 =? 0 then [EvProgress (count + 1)] else []).
    exists g1, (EvConsume f :: EvAdd f :: pr ++ tr1).
    assert (Hpr : consumed pr = [] /\ added pr = [] /\ write_count pr = 0%nat /\
                  progress pr = if (count + 1) mod 1000 =? 0 then [count + 1] else []).
    { subst pr. destruct ((count + 1) mod 1000 =? 0); auto. }
    destruct Hpr as (Hpc & Hpa & Hpw & Hpp).
    change (EvConsume f :: EvAdd f :: pr ++ tr1)
      with ([EvConsume f; EvAdd f] ++ pr ++ tr1).
    rewrite !consumed_app, !added_app, !write_count_app, !progress_app,
      Hpc, Hpa, Hpw, Hpp, Hc, Ha, Hw, Hp.
    repeat split.
    + simpl. rewrite Hadd. exact Hacc.
    + simpl length. by rewrite progress_expected_S.
    + cbn [map app fiber_loop]. rewrite Hadd, Hgo. fold pr.
      rewrite Hloop.
      replace (count + 1 + Z.of_nat (length fs))
        with (count + Z.of_nat (length (f :: fs))) by (simpl length; lia).
      destruct (fiber_loop s cap (count + Z.of_nat (length (f :: fs))) g1 rest)
        as [[o g'] tr].
      by rewrite <- app_assoc.
Qed.

Lemma fiber_loop_prefix (s : VolumeShape) (cap : Z)
    (pre rest : list (result Trajectory)) :
  0 < cap ->
  forall count g, 0 <= count < cap -> (Z.to_nat (cap - count) <= length pre)%nat ->
  fiber_loop s cap count g (pre ++ rest) = fiber_loop s cap count g pre.
Proof.
  intros Hcap. induction pre as [|[f|e] pre IH]; intros count g Hc Hlen.
  - simpl in Hlen. lia.
  - cbn [app fiber_loop]. destruct (add s g f) as [g1|e]; [|reflexivity].
    destruct ((0 <? cap) && (cap <=? count + 1)) eqn:Hstop; [reflexivity|].
    assert (Hlt : count + 1 < cap).
    { apply andb_false_iff in Hstop as [H|H];
        [apply Z.ltb_ge in H|apply Z.leb_gt in H]; lia. }
    rewrite IH by (simpl in Hlen; lia). reflexivity.
  - reflexivity.
Qed.

Lemma edges_length (s : VolumeShape) (t : Trajectory) (es : list (Z * Z)) :
  edges s t = Ok es -> length es = (length t - 1)%nat.
Proof.
  destruct t as [|p rest]; simpl; [intros [= <-]; reflexivity|].
  revert p es.
  induction rest as [|q rest IH]; intros p es; simpl; [intros [= <-]; reflexivity|].
  destruct (toLinear p s); simpl; [|discriminate].
  destruct (toLinear q s); simpl; [|discriminate].
  destruct (edge_pairs s q rest) as [es'|] eqn:E; simpl; [|discriminate].
  intros [= <-]. simpl. rewrite (IH q es' E). lia.
Qed.

Lemma accumulate_sum (s : VolumeShape) (ts : list Trajectory) :
  forall m0 m, accumulate s m0 ts = Ok m ->
  sum_weights m = sum_weights m0 + fold_right (fun t acc => pair_count t + acc) 0 ts.
Proof.
  induction ts as [|t ts IH]; intros m0 m; simpl.
  - intros [= <-]. lia.
  - rewrite add_edges. unfold res_map.
    destruct (edges s t) as [es|e] eqn:E; simpl; [|discriminate].
    intros H. rewrite (IH _ _ H), sum_weights_foldl, (edges_length s t es E).
    unfold pair_count. lia.
Qed.

Lemma Zsum_app {A} (f : A -> Z) (l1 l2 : list A) :
  Zsum f (l1 ++ l2) = Zsum f l1 + Zsum f l2.
Proof. induction l1 as [|x l1 IH]; simpl; [lia|]. unfold Zsum in *. simpl. lia. Qed.

Lemma Zsum_perm {A} (f : A -> Z) (l1 l2 : list A) :
  l1 ≡ₚ l2 -> Zsum f l1 = Zsum f l2.
Proof. intros Hp. induction Hp; unfold Zsum in *; simpl; lia. Qed.

Lemma written_weight_concat (chs : list Chunk) :
  written_weight (concat (map emit_chunk chs))
  = Zsum (fun c : (Z * Z) * ChunkEntry => Zpos c.2.2) (chunk_cells chs).
Proof.
  unfold written_weight, chunk_cells.
  induction chs as [|[[a b] es] chs IH]; [reflexivity|].
  cbn [map concat flat_map emit_chunk]. rewrite !Zsum_app, IH.
  f_equal. unfold Zsum. simpl.
  induction es as [|[[lr lc] w] es IHes]; simpl; lia.
Qed.

Lemma written_weight_writeForSciDB (m : SparseMatrix) (cs : Z * Z) :
  written_weight (writeForSciDB m cs) = sum_weights m.
Proof.
  unfold writeForSciDB. rewrite written_weight_concat.
  rewrite (Zsum_perm _ _ _ (write_chunks_cells m cs)).
  unfold sum_weights. rewrite map_fold_foldr.
  induction (map_to_list m) as [|[k w] l IH]; [reflexivity|].
  unfold Zsum in *. simpl. rewrite IH.
  unfold chunk_entry. destruct (toChunkCoord k cs) as [[[a b] lr] lc].
  reflexivity.
Qed.

(** ** The driver loop over arbitrary fiber streams *)

(** Every fiber drawn is added, except possibly the last one drawn, whose
    [add] raised. *)
Lemma fiber_loop_consumed_added (s : VolumeShape) (cap : Z)
    (fibers : list (result Trajectory)) :
  forall count g,
  let '(o, g', tr) := fiber_loop s cap count g fibers in
  consumed tr = added tr \/ (o <> None /\ exists t, consumed tr = added tr ++ [t]).
Proof.
  induction fibers as [|[f|e] fibers IH]; intros count g; simpl; [auto| |auto].
  destruct (add s g f) as [g1|e] eqn:Hadd.
  - destruct ((0 <? cap) && (cap <=? count + 1)); [simpl; auto|].
    specialize (IH (count + 1) g1).
    destruct (fiber_loop s cap (count + 1) g1 fibers) as [[o g'] tr].
    destruct (progress_events (count + 1)) as (Hc & Ha & _).
    revert Hc Ha.
    generalize (if (count + 1) mod 1000 =? 0 then [EvProgress (count + 1)]
                else []) as pr.
    intros pr Hc Ha.
    change (EvConsume f :: EvAdd f :: pr ++ tr)
      with ([EvConsume f; EvAdd f] ++ pr ++ tr).
    rewrite !consumed_app, !added_app, Hc, Ha. simpl.
    destruct IH as [IH|(Ho & t & IH)]; [left; congruence|].
    right. split; [exact Ho|]. exists t. by rewrite IH.
  - right. split; [discriminate|]. by exists f.
Qed.

(** The counts reported while the loop runs from [count] are multiples of
    1000 above [count], and none exceeds [count] plus the fibers added. *)
Lemma fiber_loop_progress (s : VolumeShape) (cap : Z)
    (fibers : list (result Trajectory)) :
  forall count g,
  let '(o, g', tr) := fiber_loop s cap count g fibers in
  Forall (fun n => n mod 1000 = 0 /\ count < n <= count + Z.of_nat (length (added tr)))
    (progress tr).
Proof.
  induction fibers as [|[f|e] fibers IH]; intros count g; simpl; [constructor| |constructor].
  destruct (add s g f) as [g1|e] eqn:Hadd; [|constructor].
  destruct ((0 <? cap) && (cap <=? count + 1)); [constructor|].
  specialize (IH (count + 1) g1).
  destruct (fiber_loop s cap (count + 1) g1 fibers) as [[o g'] tr].
  assert (Hmono : Forall (fun n => n mod 1000 = 0 /\
                    count < n <= count + Z.of_nat (length (added tr)) + 1)
                    (progress tr)).
  { eapply Forall_impl; [exact IH|]. intros n [Hn1 Hn2]. split; [exact Hn1|lia]. }
  destruct ((count + 1) mod 1000 =? 0) eqn:E; cbn [app progress added length].
  - apply Z.eqb_eq in E. constructor; [split; [exact E|lia]|].
    eapply Forall_impl; [exact Hmono|]. intros n [Hn1 Hn2]. split; [exact Hn1|lia].
  - eapply Forall_impl; [exact Hmono|]. intros n [Hn1 Hn2]. split; [exact Hn1|lia].
Qed.

(** With a positive cap, the loop started below it draws at most the
    fibers needed to reach it. *)
Lemma fiber_loop_cap_bound (s : VolumeShape) (cap : Z)
    (fibers : list (result Trajectory)) :
  0 < cap ->
  forall count g, count < cap ->
  let '(o, g', tr) := fiber_loop s cap count g fibers in
  count + Z.of_nat (length (consumed tr)) <= cap.
Proof.
  intros Hcap.
  induction fibers as [|[f|e] fibers IH]; intros count g Hc; simpl; [lia| |lia].
  destruct (add s g f) as [g1|e] eqn:Hadd; [|simpl; lia].
  destruct ((0 <? cap) && (cap <=? count + 1)) eqn:Hstop; [simpl; lia|].
  assert (Hlt : count + 1 < cap).
  { apply andb_false_iff in Hstop as [H|H];
      [apply Z.ltb_ge in H|apply Z.leb_gt in H]; lia. }
  specialize (IH (count + 1) g1 Hlt).
  destruct (fiber_loop s cap (count + 1) g1 fibers) as [[o g'] tr].
  destruct (progress_events (count + 1)) as (Hpc & _ & _).
  revert Hpc.
  generalize (if (count + 1) mod 1000 =? 0 then [EvProgress (count + 1)]
              else []) as pr.
  intros pr Hpc.
  change (EvConsume f :: EvAdd f :: pr ++ tr)
    with ([EvConsume f; EvAdd f] ++ pr ++ tr).
  rewrite !consumed_app, Hpc. simpl. lia.
Qed.

(** The loop does not tell one non-positive cap from another. *)
Lemma fiber_loop_cap_nonpos (s : VolumeShape) (cap cap' : Z)
    (fibers : list (result Trajectory)) :
  cap <= 0 -> cap' <= 0 ->
  forall count g, fiber_loop s cap count g fibers = fiber_loop s cap' count g fibers.
Proof.
  intros H H'.
  assert (E : (0 <? cap) = false) by (apply Z.ltb_ge; lia).
  assert (E' : (0 <? cap') = false) by (apply Z.ltb_ge; lia).
  induction fibers as [|[f|e] fibers IH]; intros count g; simpl; [reflexivity| |reflexivity].
  rewrite E, E'. simpl. destruct (add s g f); [|reflexivity].
  by rewrite IH.
Qed.

Lemma trace_print_reader (tr : list event) :
  consumed (EvPrintReader :: tr) = consumed tr /\
  added (EvPrintReader :: tr) = added tr /\
  progress (EvPrintReader :: tr) = progress tr.
Proof. repeat split. Qed.

Lemma trace_write_last (tr : list event) (cs : Z * Z) (out : list Rec) :
  consumed (tr ++ [EvWrite cs out]) = consumed tr /\
  added (tr ++ [EvWrite cs out]) = added tr /\
  progress (tr ++ [EvWrite cs out]) = progress tr.
Proof. by rewrite consumed_app, added_app, progress_app, !app_nil_r. Qed.

(* ------------------------------------------------------------------ *)
(** ** Further properties of [gengraph.main] *)





(** With a positive cap N, nothing after the first N items of the fiber
    stream is ever drawn: the run is the same whatever follows them, even
    items that would fail to decode. *)
Theorem cap_never_reads_past_n (cap : Z) (sh : VolumeShape)
    (pre rest : list (result Trajectory)) (out_ok : bool) :
  0 < cap -> (Z.to_nat cap <= length pre)%nat ->
  main cap (Ok (mkSource sh (pre ++ rest))) out_ok
  = main cap (Ok (mkSource sh pre)) out_ok.
Proof.
  intros Hcap Hlen. unfold main. simpl.
  rewrite (fiber_loop_prefix sh cap pre rest Hcap 0 ∅) by lia. reflexivity.
Qed.

Lemma cap_never_reads_past_n_witness :
  main 1 (Ok (mkSource (mkShape 4 4 4)
               ([Ok [mkCoord 0 0 0; mkCoord 1 0 0]] ++ [Err MalformedRecordError])))
       true
  = main 1 (Ok (mkSource (mkShape 4 4 4) [Ok [mkCoord 0 0 0; mkCoord 1 0 0]])) true.
Proof. apply cap_never_reads_past_n; simpl; lia. Defined.

(** A fiber that fails to decode, met before the cap is reached, aborts
    the run with its exception: every fiber before it has been drawn and
    added, and no chunk is written. *)
Theorem decode_error_aborts_run (cap : Z) (src : FiberSource)
    (fs : list Trajectory) (e : error) (rest : list (result Trajectory)) :
  src_fibers src = map Ok fs ++ Err e :: rest ->
  all_in_bounds (src_shape src) fs ->
  (cap <= 0 \/ Z.of_nat (length fs) < cap) ->
  let '(o, tr) := main cap (Ok src) true in
  o = Raised e /\ consumed tr = fs /\ added tr = fs /\ write_count tr = 0%nat.
Proof.
  intros Hsrc Hall Hcap.
  destruct (fiber_loop_valid_prefix (src_shape src) cap fs (Err e :: rest) Hall 0 ∅
              ltac:(lia)) as (g1 & tr1 & _ & Hc & Ha & Hw & _ & Hloop).
  unfold main. cbn [negb]. rewrite Hsrc, Hloop. cbn [fiber_loop].
  rewrite app_nil_r. change (EvPrintReader :: tr1) with ([EvPrintReader] ++ tr1).
  rewrite consumed_app, added_app, write_count_app, Hc, Ha, Hw. auto.
Qed.

Lemma decode_error_aborts_run_witness :
  let '(o, tr) := main (-1) (Ok (mkSource (mkShape 4 4 4)
                    (map Ok [[mkCoord 0 0 0; mkCoord 1 0 0]]
                     ++ Err MalformedRecordError :: [Ok [mkCoord 2 2 2]])))
                    true in
  o = Raised MalformedRecordError /\
  consumed tr = [[mkCoord 0 0 0; mkCoord 1 0 0]] /\
  added tr = [[mkCoord 0 0 0; mkCoord 1 0 0]] /\ write_count tr = 0%nat.
Proof.
  apply (decode_error_aborts_run (-1)
           (mkSource (mkShape 4 4 4)
              (map Ok [[mkCoord 0 0 0; mkCoord 1 0 0]]
               ++ Err MalformedRecordError :: [Ok [mkCoord 2 2 2]]))
           [[mkCoord 0 0 0; mkCoord 1 0 0]] MalformedRecordError
           [Ok [mkCoord 2 2 2]]).
  - reflexivity.
  - repeat constructor.
  - lia.
Defined.

(** A fiber with at least two points, one of them outside the volume,
    met before the cap is reached, aborts the run with
    [OutOfBoundsError]: it has been drawn but not added, the fibers before
    it have been added, and no chunk is written. *)
Theorem out_of_bounds_fiber_aborts_run (cap : Z) (src : FiberSource)
    (fs : list Trajectory) (t : Trajectory) (c : Coord)
    (rest : list (result Trajectory)) :
  src_fibers src = map Ok fs ++ Ok t :: rest ->
  all_in_bounds (src_shape src) fs ->
  (cap <= 0 \/ Z.of_nat (length fs) < cap) ->
  In c t -> in_bounds (src_shape src) c = false -> (2 <= length t)%nat ->
  let '(o, tr) := main cap (Ok src) true in
  o = Raised OutOfBoundsError /\ consumed tr = fs ++ [t] /\ added tr = fs /\
  write_count tr = 0%nat.
Proof.
  intros Hsrc Hall Hcap Hin Hc Hlen.
  destruct (fiber_loop_valid_prefix (src_shape src) cap fs (Ok t :: rest) Hall 0 ∅
              ltac:(lia)) as (g1 & tr1 & _ & Hcs & Ha & Hw & _ & Hloop).
  assert (Hadd : add (src_shape src) g1 t = Err OutOfBoundsError).
  { rewrite add_edges, (edges_out _ _ c Hc Hin Hlen). reflexivity. }
  unfold main. cbn [negb]. rewrite Hsrc, Hloop. cbn [fiber_loop]. rewrite Hadd.
  change (EvPrintReader :: tr1 ++ [EvConsume t])
    with ([EvPrintReader] ++ tr1 ++ [EvConsume t]).
  rewrite !consumed_app, !added_app, !write_count_app, Hcs, Ha, Hw.
  cbn [consumed added]. rewrite app_nil_r. auto.
Qed.

Lemma out_of_bounds_fiber_aborts_run_witness :
  let '(o, tr) := main (-1) (Ok (mkSource (mkShape 4 4 4)
                    (map Ok [[mkCoord 0 0 0; mkCoord 1 0 0]]
                     ++ Ok [mkCoord 2 2 2; mkCoord 4 0 0] :: [Ok [mkCoord 3 3 3]])))
                    true in
  o = Raised OutOfBoundsError /\
  consumed tr = [[mkCoord 0 0 0; mkCoord 1 0 0]] ++ [[mkCoord 2 2 2; mkCoord 4 0 0]] /\
  added tr = [[mkCoord 0 0 0; mkCoord 1 0 0]] /\ write_count tr = 0%nat.
Proof.
  apply (out_of_bounds_fiber_aborts_run (-1)
           (mkSource (mkShape 4 4 4)
              (map Ok [[mkCoord 0 0 0; mkCoord 1 0 0]]
               ++ Ok [mkCoord 2 2 2; mkCoord 4 0 0] :: [Ok [mkCoord 3 3 3]]))
           [[mkCoord 0 0 0; mkCoord 1 0 0]] [mkCoord 2 2 2; mkCoord 4 0 0]
           (mkCoord 4 0 0) [Ok [mkCoord 3 3 3]]).
  - reflexivity.
  - repeat constructor.
  - lia.
  - simpl. auto.
  - reflexivity.
  - simpl. lia.
Defined.

(** The "Processed %d fibers" lines of a run over well-formed fibers
    report every multiple of 1000 up to the number of fibers processed,
    except that with a positive cap N that is reached the N-th fiber
    ends the loop before its count is checked, so only counts up to N - 1
    are reported. *)
Theorem progress_lines (cap : Z) (src : FiberSource) (fs : list Trajectory) :
  src_fibers src = map Ok fs -> all_in_bounds (src_shape src) fs ->
  progress (main cap (Ok src) true).2
  = progress_expected 0
      (if (0 <? cap) && (cap <=? Z.of_nat (length fs))
       then (Z.to_nat cap - 1)%nat else length fs).
Proof.
  intros Hsrc Hall. unfold main. cbn [negb]. rewrite Hsrc.
  destruct ((0 <? cap) && (cap <=? Z.of_nat (length fs))) eqn:Hcap.
  - apply andb_true_iff in Hcap as [H1 H2].
    apply Z.ltb_lt in H1. apply Z.leb_le in H2.
    set (k := (Z.to_nat cap - 1)%nat).
    destruct (drop k fs) as [|f rest] eqn:Hd.
    { apply (f_equal length) in Hd. rewrite length_drop in Hd. simpl in Hd. lia. }
    assert (Hfs : fs = take k fs ++ f :: rest).
    { rewrite <- Hd. symmetry. apply take_drop. }
    rewrite Hfs in Hall. apply Forall_app in Hall as [Hpre Hpost].
    inversion Hpost as [|? ? Hf _]; subst.
    assert (Hk : length (take k fs) = k).
    { rewrite length_take. lia. }
    rewrite Hfs, map_app. cbn [map].
    destruct (fiber_loop_valid_prefix (src_shape src) cap (take k fs)
                (Ok f :: map Ok rest) Hpre 0 ∅ ltac:(lia))
      as (g1 & tr1 & _ & _ & _ & _ & Hp & Hloop).
    rewrite Hloop, Hk.
    destruct (edges_ok _ f Hf) as (es & Hes & _).
    cbn [fiber_loop]. rewrite add_edges, Hes. unfold res_map.
    replace ((0 <? cap) && (cap <=? 0 + Z.of_nat k + 1)) with true.
    2:{ symmetry. apply andb_true_iff. split; [lia|]. apply Z.leb_le. lia. }
    cbn [res_bind snd progress]. rewrite !progress_app, Hp, Hk. cbn [progress].
    by rewrite !app_nil_r.
  - destruct (fiber_loop_valid_prefix (src_shape src) cap fs [] Hall 0 ∅)
      as (g1 & tr1 & _ & _ & _ & _ & Hp & Hloop).
    { apply andb_false_iff in Hcap as [H|H];
        [apply Z.ltb_ge in H|apply Z.leb_gt in H]; lia. }
    rewrite <- (app_nil_r (map Ok fs)), Hloop. cbn [fiber_loop snd progress].
    rewrite !progress_app, Hp. cbn [progress]. by rewrite !app_nil_r.
Qed.

Lemma progress_lines_witness :
  progress (main 2 (Ok (mkSource (mkShape 4 4 4)
              (map Ok [[mkCoord 0 0 0]; [mkCoord 1 1 1]; [mkCoord 2 2 2]]))) true).2
  = progress_expected 0
      (if (0 <? 2) && (2 <=? Z.of_nat (length [[mkCoord 0 0 0]; [mkCoord 1 1 1];
                                                [mkCoord 2 2 2]]))
       then (Z.to_nat 2 - 1)%nat
       else length [[mkCoord 0 0 0]; [mkCoord 1 1 1]; [mkCoord 2 2 2]]).
Proof.
  apply (progress_lines 2 (mkSource (mkShape 4 4 4)
           (map Ok [[mkCoord 0 0 0]; [mkCoord 1 1 1]; [mkCoord 2 2 2]]))).
  - reflexivity.
  - repeat constructor.
Defined.

(** Whenever a run writes chunks, the total weight of the entries written
    equals the number of consecutive point pairs over the fibers added. *)
Theorem written_weight_conservation (cap : Z) (reader : result FiberSource)
    (out_ok : bool) (o : outcome) (tr : list event) (cs : Z * Z) (out : list Rec) :
  main cap reader out_ok = (o, tr) -> In (EvWrite cs out) tr ->
  written_weight out = fold_right (fun t acc => pair_count t + acc) 0 (added tr).
Proof.
  unfold main. destruct reader as [src|e].
  2:{ intros [= _ <-] []. }
  destruct out_ok; cbn [negb].
  2:{ intros [= _ <-] [H|[]]. discriminate. }
  pose proof (fiber_loop_trace (src_shape src) cap (src_fibers src) 0 ∅) as Htr.
  destruct (fiber_loop (src_shape src) cap 0 ∅ (src_fibers src)) as [[[e|] g'] tr'].
  - intros [= _ <-] [H|Hin]; [discriminate|].
    destruct Htr as [Hw _]. exact (False_rect _ (write_count_zero_not_in _ _ _ Hw Hin)).
  - intros [= _ <-] [H|Hin]; [discriminate|].
    destruct Htr as [Hw Ho]. destruct (Ho eq_refl) as [_ Hacc].
    apply in_app_or in Hin as [Hin|[Heq|[]]].
    + exact (False_rect _ (write_count_zero_not_in _ _ _ Hw Hin)).
    + injection Heq as <- <-.
      change (EvPrintReader :: tr' ++ [EvWrite (65536, 65536)
                                          (writeForSciDB g' (65536, 65536))])
        with ([EvPrintReader] ++ tr' ++ [EvWrite (65536, 65536)
                                          (writeForSciDB g' (65536, 65536))]).
      rewrite !added_app. cbn [added]. rewrite app_nil_r.
      rewrite written_weight_writeForSciDB.
      rewrite (accumulate_sum _ _ _ _ Hacc), sum_weights_empty. simpl. lia.
Qed.

Lemma written_weight_conservation_witness :
  exists o tr cs out,
    main (-1) (Ok (mkSource (mkShape 4 4 4)
                    (map Ok [[mkCoord 0 0 0; mkCoord 1 0 0; mkCoord 1 1 0]])))
         true = (o, tr) /\
    In (EvWrite cs out) tr /\
    written_weight out = fold_right (fun t acc => pair_count t + acc) 0 (added tr).
Proof.
  do 4 eexists. split; [reflexivity|].
  split; [simpl; repeat (first [left; reflexivity | right])|].
  apply (written_weight_conservation (-1)
           (Ok (mkSource (mkShape 4 4 4)
                  (map Ok [[mkCoord 0 0 0; mkCoord 1 0 0; mkCoord 1 1 0]]))) true
           Finished _ (65536, 65536) _).
  - reflexivity.
  - simpl. repeat (first [left; reflexivity | right]).
Defined.

(** Every fiber drawn from the reader is added to the graph, except, in a
    run that raises, the last one drawn, whose [add] raised. *)
Theorem drawn_fibers_added_but_failing (cap : Z) (reader : result FiberSource)
    (out_ok : bool) :
  let '(o, tr) := main cap reader out_ok in
  consumed tr = added tr \/
  (exists e t, o = Raised e /\ consumed tr = added tr ++ [t]).
Proof.
  unfold main. destruct reader as [src|e]; [|auto].
  destruct out_ok; cbn [negb]; [|auto].
  pose proof (fiber_loop_consumed_added (src_shape src) cap (src_fibers src) 0 ∅) as H.
  pose proof (fiber_loop_trace (src_shape src) cap (src_fibers src) 0 ∅) as Htr.
  destruct (fiber_loop (src_shape src) cap 0 ∅ (src_fibers src)) as [[[e|] g'] tr].
  - destruct (trace_print_reader tr) as (-> & -> & _).
    destruct H as [H|(_ & t & H)]; [by left|].
    right. by exists e, t.
  - destruct Htr as [_ Ho]. destruct (Ho eq_refl) as [Hc _].
    destruct (trace_print_reader (tr ++ [EvWrite (65536, 65536)
                                   (writeForSciDB g' (65536, 65536))]))
      as (-> & -> & _).
    destruct (trace_write_last tr (65536, 65536) (writeForSciDB g' (65536, 65536)))
      as (-> & -> & _).
    by left.
Qed.

(** With a positive [--count] N, a run draws at most N fibers from the
    reader, whatever the stream holds. *)
Theorem count_bounds_fibers_drawn (cap : Z) (reader : result FiberSource)
    (out_ok : bool) :
  0 < cap ->
  let '(o, tr) := main cap reader out_ok in
  (length (consumed tr) <= Z.to_nat cap)%nat.
Proof.
  intros Hcap. unfold main. destruct reader as [src|e]; [|simpl; lia].
  destruct out_ok; cbn [negb]; [|simpl; lia].
  pose proof (fiber_loop_cap_bound (src_shape src) cap (src_fibers src) Hcap 0 ∅ Hcap)
    as H.
  destruct (fiber_loop (src_shape src) cap 0 ∅ (src_fibers src)) as [[[e|] g'] tr].
  - destruct (trace_print_reader tr) as (-> & _ & _). lia.
  - destruct (trace_print_reader (tr ++ [EvWrite (65536, 65536)
                                   (writeForSciDB g' (65536, 65536))]))
      as (-> & _ & _).
    destruct (trace_write_last tr (65536, 65536) (writeForSciDB g' (65536, 65536)))
      as (-> & _ & _).
    lia.
Qed.

Lemma count_bounds_fibers_drawn_witness :
  0 < 1 /\
  let '(o, tr) := main 1 (Ok (mkSource (mkShape 4 4 4)
                    [Ok [mkCoord 0 0 0; mkCoord 1 0 0]; Ok [mkCoord 2 2 2];
                     Err TruncatedHeaderError])) true in
  (length (consumed tr) <= Z.to_nat 1)%nat.
Proof.
  split; [lia|].
  apply (count_bounds_fibers_drawn 1
           (Ok (mkSource (mkShape 4 4 4)
                  [Ok [mkCoord 0 0 0; mkCoord 1 0 0]; Ok [mkCoord 2 2 2];
                   Err TruncatedHeaderError])) true).
  lia.
Defined.

(** Every non-positive [--count] gives the same run as the default -1:
    only a positive value caps the fibers read. *)
Theorem nonpositive_count_is_default (cap : Z) (reader : result FiberSource)
    (out_ok : bool) :
  cap <= 0 -> main cap reader out_ok = main (-1) reader out_ok.
Proof.
  intros Hcap. unfold main. destruct reader as [src|e]; [|reflexivity].
  destruct out_ok; cbn [negb]; [|reflexivity].
  by rewrite (fiber_loop_cap_nonpos (src_shape src) cap (-1)) by lia.
Qed.

Lemma nonpositive_count_is_default_witness :
  main 0 (Ok (mkSource (mkShape 4 4 4)
               [Ok [mkCoord 0 0 0; mkCoord 1 0 0]; Ok [mkCoord 2 2 2]])) true
  = main (-1) (Ok (mkSource (mkShape 4 4 4)
                    [Ok [mkCoord 0 0 0; mkCoord 1 0 0]; Ok [mkCoord 2 2 2]])) true.
Proof. apply nonpositive_count_is_default. lia. Defined.

(** Every count reported by a "Processed %d fibers" line is a positive
    multiple of 1000 no larger than the number of fibers added in the
    run. *)
Theorem progress_counts_bounded (cap : Z) (reader : result FiberSource)
    (out_ok : bool) :
  let '(o, tr) := main cap reader out_ok in
  Forall (fun n => n mod 1000 = 0 /\ 0 < n <= Z.of_nat (length (added tr)))
    (progress tr).
Proof.
  unfold main. destruct reader as [src|e]; [|constructor].
  destruct out_ok; cbn [negb]; [|constructor].
  pose proof (fiber_loop_progress (src_shape src) cap (src_fibers src) 0 ∅) as H.
  destruct (fiber_loop (src_shape src) cap 0 ∅ (src_fibers src)) as [[[e|] g'] tr].
  - destruct (trace_print_reader tr) as (_ & -> & ->). exact H.
  - destruct (trace_print_reader (tr ++ [EvWrite (65536, 65536)
                                   (writeForSciDB g' (65536, 65536))]))
      as (_ & -> & ->).
    destruct (trace_write_last tr (65536, 65536) (writeForSciDB g' (65536, 65536)))
      as (_ & -> & ->).
    exact H.
Qed.
